(** * MatterServer: registration and start/close sequencing

    A shallow embedding of [packages/matter.js/src/MatterServer.ts].

    The class keeps one private array, [nodes], and talks to collaborators
    whose code lives elsewhere (the storage manager, the two MDNS factories
    and the nodes themselves).  Every method is modelled as a computation
    that reads and writes the [MatterServer] record, records each call it
    makes on a collaborator, and either completes normally or throws.  What
    a collaborator answers is not decided here: it is given by a [World],
    an arbitrary function of the calls made so far, and all theorems are
    stated for every [World]. *)

From stdpp Require Import gmap strings list pretty.

Set Default Proof Using "Type".

(** ** Objects handed to the server

    JavaScript objects are references; each one is modelled by a record
    holding its reference together with the fields that MatterServer.ts
    reads from it. *)

Record StorageManager := { storageManager_ref : nat }.
Record StorageContext := { storageContext_ref : nat }.
Record MdnsBroadcaster := { mdnsBroadcaster_ref : nat }.
Record MdnsScanner := { mdnsScanner_ref : nat }.

(** [getPort] is the value returned by [node.getPort()]; [delayedAnnouncement]
    is the field read by [start]. *)
Record CommissioningServer := {
  commissioningServer_ref : nat;
  getPort : Z;
  delayedAnnouncement : bool
}.

Record CommissioningController := {
  commissioningController_ref : nat;
  delayedPairing : bool
}.

(** The elements of [nodes].  Only [addCommissioningServer] and
    [addCommissioningController] push onto the array, so an element is an
    instance of one of the two classes; [instanceof] becomes a [match]. *)
Inductive MatterNode :=
| ServerNode (commissioningServer : CommissioningServer)
| ControllerNode (commissioningController : CommissioningController).

(** [type NodeOptions = { uniqueNodeId?: string }] *)
Record NodeOptions := { uniqueNodeId : option string }.

(** ** Calls on collaborators *)

Inductive Call :=
| CreateContext (storageManager : StorageManager) (id : string)
    (* storageManager.createContext(id) *)
| SetStorage (node : MatterNode) (storage : StorageContext)
    (* node.setStorage(storage) *)
| MdnsBroadcaster_create (announceInterface : option string)
    (* await MdnsBroadcaster.create(announceInterface) *)
| MdnsScanner_create
    (* await MdnsScanner.create() *)
| SetMdnsBroadcaster (node : MatterNode) (broadcaster : MdnsBroadcaster)
    (* node.setMdnsBroadcaster(broadcaster) *)
| SetMdnsScanner (node : MatterNode) (scanner : MdnsScanner)
    (* node.setMdnsScanner(scanner) *)
| Advertise (node : MatterNode)
    (* await node.advertise() *)
| Connect (node : MatterNode)
    (* await node.connect() *)
| NodeClose (node : MatterNode).
    (* await node.close() *)

(** What a call evaluates to when it returns. *)
Definition Ret (c : Call) : Type :=
  match c with
  | CreateContext _ _ => StorageContext
  | MdnsBroadcaster_create _ => MdnsBroadcaster
  | MdnsScanner_create => MdnsScanner
  | _ => unit
  end.

(** The value a collaborator throws, or rejects its promise with. *)
Record Thrown := { reason : string }.

(** A world answers every call, given the calls made before it: it throws
    ([inl]) or returns ([inr]). *)
Definition World := list Call -> forall c : Call, Thrown + Ret c.

(** The failure, if any, of call [c] made after the calls [h]. *)
Definition failure (w : World) (h : list Call) (c : Call) : option Thrown :=
  match w h c with
  | inl t => Some t
  | inr _ => None
  end.

(** ** Exceptions and completions *)

Inductive Exception :=
| Error (message : string)   (* [throw new Error(message)] in MatterServer.ts *)
| Rejected (t : Thrown).     (* thrown by a collaborator, not caught here *)

Inductive Completion (A : Type) :=
| Normal (a : A)
| Throw (e : Exception).
Arguments Normal {A} a.
Arguments Throw {A} e.

(** ** The server and its computations *)

Record MatterServer := {
  nodes : list MatterNode;
  storageManager : StorageManager;
  mdnsAnnounceInterface : option string
}.

(** [new MatterServer(storageManager, mdnsAnnounceInterface)] *)
Definition new_MatterServer (sm : StorageManager) (iface : option string) : MatterServer :=
  {| nodes := []; storageManager := sm; mdnsAnnounceInterface := iface |}.

(** The outcome of running a computation: how it completed, the server it
    left behind and the calls it made, oldest first. *)
Record Run (A : Type) := {
  result : Completion A;
  server : MatterServer;
  calls : list Call
}.
Arguments Build_Run {A}.
Arguments result {A}.
Arguments server {A}.
Arguments calls {A}.

(** A computation runs in a world, after the calls [h], from a server. *)
Definition Eff (A : Type) : Type := World -> list Call -> MatterServer -> Run A.

Definition ret {A} (a : A) : Eff A :=
  fun _ _ s => {| result := Normal a; server := s; calls := [] |}.

Definition throw {A} (e : Exception) : Eff A :=
  fun _ _ s => {| result := Throw e; server := s; calls := [] |}.

(** Sequencing.  An exception skips the continuation and keeps the server as
    it was when the exception was thrown. *)
Definition bind {A B} (m : Eff A) (k : A -> Eff B) : Eff B :=
  fun w h s =>
    let r := m w h s in
    match result r with
    | Normal a =>
        let r' := k a w (h ++ calls r) (server r) in
        {| result := result r'; server := server r'; calls := calls r ++ calls r' |}
    | Throw e => {| result := Throw e; server := server r; calls := calls r |}
    end.

Notation "x <- m ;; k" := (bind m (fun x => k))
  (at level 100, m at next level, right associativity).
Notation "m ;; k" := (bind m (fun _ => k))
  (at level 100, right associativity).

(** Making a call on a collaborator. *)
Definition perform (c : Call) : Eff (Ret c) :=
  fun w h s =>
    match w h c with
    | inr v => {| result := Normal v; server := s; calls := [c] |}
    | inl t => {| result := Throw (Rejected t); server := s; calls := [c] |}
    end.

(** [this.nodes], [this.storageManager], [this.mdnsAnnounceInterface] *)
Definition this_nodes : Eff (list MatterNode) :=
  fun _ _ s => {| result := Normal (nodes s); server := s; calls := [] |}.
Definition this_storageManager : Eff StorageManager :=
  fun _ _ s => {| result := Normal (storageManager s); server := s; calls := [] |}.
Definition this_mdnsAnnounceInterface : Eff (option string) :=
  fun _ _ s => {| result := Normal (mdnsAnnounceInterface s); server := s; calls := [] |}.

(** [this.nodes.push(node)] *)
Definition nodes_push (node : MatterNode) : Eff unit :=
  fun _ _ s =>
    {| result := Normal tt;
       server := {| nodes := nodes s ++ [node];
                    storageManager := storageManager s;
                    mdnsAnnounceInterface := mdnsAnnounceInterface s |};
       calls := [] |}.

(** [for (const x of l) body], the body updating the loop's local variable. *)
Fixpoint for_of_var {A V} (l : list A) (body : A -> V -> Eff V) (v : V) : Eff V :=
  match l with
  | [] => ret v
  | x :: l' => v' <- body x v ;; for_of_var l' body v'
  end.

(** [for (const x of l) body] *)
Fixpoint for_of {A} (l : list A) (body : A -> Eff unit) : Eff unit :=
  match l with
  | [] => ret tt
  | x :: l' => body x ;; for_of l' body
  end.

(** ** The methods of MatterServer *)

(** [nodeOptions?.uniqueNodeId ?? length.toString()] *)
Definition storageId (nodeOptions : option NodeOptions) (length : nat) : string :=
  match nodeOptions with
  | Some {| uniqueNodeId := Some id |} => id
  | _ => pretty length
  end.

Definition only_one_node : Exception :=
  Error "Only one node is allowed for now".

Definition port_in_use (nodePort : Z) : Exception :=
  Error ("Port " +:+ pretty nodePort +:+ " is already in use by other node").

(** The loop of [addCommissioningServer] over the registered nodes, with its
    [portCheckMap].  [node.getPort()] is read as the field [getPort] of the
    node, and the port is rendered in the message as an integer.  The
    methods only ever enter the loop with an empty registry. *)
Definition portCheck (registered : list MatterNode) : Eff (gmap Z bool) :=
  for_of_var registered
    (fun node (portCheckMap : gmap Z bool) =>
       match node with
       | ServerNode cs =>
           let nodePort := getPort cs in
           if bool_decide (is_Some (portCheckMap !! nodePort))
           then throw (port_in_use nodePort)
           else ret (<[nodePort := true]> portCheckMap)
       | ControllerNode _ => ret portCheckMap
       end)
    ∅.

Definition addCommissioningServer
    (commissioningServer : CommissioningServer) (nodeOptions : option NodeOptions) : Eff unit :=
  registered <- this_nodes ;;
  (if bool_decide (0 < length registered) then throw only_one_node else ret tt) ;;
  registered <- this_nodes ;;
  portCheck registered ;;
  sm <- this_storageManager ;;
  registered <- this_nodes ;;
  storage <- perform (CreateContext sm (storageId nodeOptions (length registered))) ;;
  perform (SetStorage (ServerNode commissioningServer) storage) ;;
  nodes_push (ServerNode commissioningServer).

Definition addCommissioningController
    (commissioningController : CommissioningController) (nodeOptions : option NodeOptions) : Eff unit :=
  registered <- this_nodes ;;
  (if bool_decide (0 < length registered) then throw only_one_node else ret tt) ;;
  sm <- this_storageManager ;;
  registered <- this_nodes ;;
  storage <- perform (CreateContext sm (storageId nodeOptions (length registered))) ;;
  perform (SetStorage (ControllerNode commissioningController) storage) ;;
  nodes_push (ControllerNode commissioningController).

Definition start_node (node : MatterNode) : Eff unit :=
  match node with
  | ServerNode cs =>
      announceInterface <- this_mdnsAnnounceInterface ;;
      broadcaster <- perform (MdnsBroadcaster_create announceInterface) ;;
      perform (SetMdnsBroadcaster node broadcaster) ;;
      scanner <- perform MdnsScanner_create ;;
      perform (SetMdnsScanner node scanner) ;;
      if negb (delayedAnnouncement cs) then perform (Advertise node) else ret tt
  | ControllerNode cc =>
      scanner <- perform MdnsScanner_create ;;
      perform (SetMdnsScanner node scanner) ;;
      if negb (delayedPairing cc) then perform (Connect node) else ret tt
  end.

Definition start : Eff unit :=
  registered <- this_nodes ;;
  for_of registered start_node.

Definition close : Eff unit :=
  registered <- this_nodes ;;
  for_of registered (fun node => perform (NodeClose node)).

(** ** Sequences of method calls *)

Inductive Op :=
| AddCommissioningServer (commissioningServer : CommissioningServer) (nodeOptions : option NodeOptions)
| AddCommissioningController (commissioningController : CommissioningController) (nodeOptions : option NodeOptions)
| Start
| Close.

Definition run_op (op : Op) : Eff unit :=
  match op with
  | AddCommissioningServer cs o => addCommissioningServer cs o
  | AddCommissioningController cc o => addCommissioningController cc o
  | Start => start
  | Close => close
  end.

(** A caller that invokes the methods one after the other and carries on
    after an exception: the server and the calls made so far are threaded
    through. *)
Fixpoint run_ops (w : World) (ops : list Op) (h : list Call) (s : MatterServer)
    : MatterServer * list Call :=
  match ops with
  | [] => (s, h)
  | op :: ops' =>
      let r := run_op op w h s in
      run_ops w ops' (h ++ calls r) (server r)
  end.

(** A world in which every call returns. *)
Definition quiet_world : World :=
  fun h c =>
    match c return Thrown + Ret c with
    | CreateContext _ _ => inr {| storageContext_ref := length h |}
    | MdnsBroadcaster_create _ => inr {| mdnsBroadcaster_ref := length h |}
    | MdnsScanner_create => inr {| mdnsScanner_ref := length h |}
    | _ => inr tt
    end.

Definition sm0 : StorageManager := {| storageManager_ref := 0 |}.

(** A world like [quiet_world], except that closing the node with
    reference [1] fails. *)
Definition close_failure : Thrown := {| reason := "close failed" |}.

Definition node_ref (node : MatterNode) : nat :=
  match node with
  | ServerNode cs => commissioningServer_ref cs
  | ControllerNode cc => commissioningController_ref cc
  end.

Definition first_close_fails : World :=
  fun h c =>
    match c return Thrown + Ret c with
    | NodeClose node =>
        if bool_decide (node_ref node = 1) then inl close_failure else inr tt
    | c' => quiet_world h c'
    end.

(** A world like [quiet_world], except that no scanner can be created. *)
Definition scanner_failure : Thrown := {| reason := "no scanner" |}.

Definition no_scanner : World :=
  fun h c =>
    match c return Thrown + Ret c with
    | MdnsScanner_create => inl scanner_failure
    | c' => quiet_world h c'
    end.

Definition serverA : CommissioningServer :=
  {| commissioningServer_ref := 1; getPort := 5540; delayedAnnouncement := false |}.
Definition serverB : CommissioningServer :=
  {| commissioningServer_ref := 2; getPort := 5540; delayedAnnouncement := false |}.
Definition controllerC : CommissioningController :=
  {| commissioningController_ref := 3; delayedPairing := false |}.

(** A server on which [serverA] is registered. *)
Definition server_with_A : MatterServer :=
  {| nodes := [ServerNode serverA]; storageManager := sm0; mdnsAnnounceInterface := None |}.

Definition empty_server : MatterServer := new_MatterServer sm0 None.

(** A registry of two nodes, as [start] and [close] would meet it were the
    cap lifted. *)
Definition server_with_A_B : MatterServer :=
  {| nodes := [ServerNode serverA; ServerNode serverB];
     storageManager := sm0; mdnsAnnounceInterface := None |}.

(** ** Reading a trace *)

(** The calls of [l], made after [h], that returned. *)
Fixpoint returned (w : World) (h : list Call) (l : list Call) : list Call :=
  match l with
  | [] => []
  | c :: l' =>
      match failure w h c with
      | Some _ => returned w (h ++ [c]) l'
      | None => c :: returned w (h ++ [c]) l'
      end
  end.

Definition storage_of (c : Call) : option (MatterNode * StorageContext) :=
  match c with
  | SetStorage node storage => Some (node, storage)
  | _ => None
  end.

(** The storage contexts handed to nodes by the calls [l] made after [h]:
    the [setStorage] calls that returned, oldest first. *)
Definition assigned (w : World) (h : list Call) (l : list Call)
    : list (MatterNode * StorageContext) :=
  omap storage_of (returned w h l).

(** [P pre c] holds of every call [c] of [l], [pre] being the calls of [l]
    made before it. *)
Definition each_call (P : list Call -> Call -> Prop) (l : list Call) : Prop :=
  forall pre c post, l = pre ++ c :: post -> P pre c.

(** No call is made after a call that failed, and the exception that
    failure raises is the outcome. *)
Definition fail_fast {A} (w : World) (h : list Call) (r : Run A) : Prop :=
  forall pre c post t,
    calls r = pre ++ c :: post ->
    failure w (h ++ pre) c = Some t ->
    post = [] /\ result r = Throw (Rejected t).

(** An exception raised by a collaborator comes from the last call made. *)
Definition rejected_by_last_call {A} (w : World) (h : list Call) (r : Run A) : Prop :=
  forall t,
    result r = Throw (Rejected t) ->
    exists pre c, calls r = pre ++ [c] /\ failure w (h ++ pre) c = Some t.

(** The outcome of a computation that raises no exception of its own and
    catches none. *)
Definition propagating {A} (w : World) (h : list Call) (r : Run A) : Prop :=
  fail_fast w h r /\
  rejected_by_last_call w h r /\
  (forall message, result r <> Throw (Error message)).

(** What [start] requires of the calls made before a default action. *)
Definition injected_before (pre : list Call) (c : Call) : Prop :=
  match c with
  | Advertise node =>
      (exists broadcaster, SetMdnsBroadcaster node broadcaster ∈ pre) /\
      (exists scanner, SetMdnsScanner node scanner ∈ pre)
  | Connect node => exists scanner, SetMdnsScanner node scanner ∈ pre
  | _ => True
  end.

(** The node's deferred flag says that its default action must not run. *)
Definition deferred (node : MatterNode) : bool :=
  match node with
  | ServerNode cs => delayedAnnouncement cs
  | ControllerNode cc => delayedPairing cc
  end.

Definition is_server (node : MatterNode) : bool :=
  match node with ServerNode _ => true | ControllerNode _ => false end.

(** The calls of [start] that are particular to one variant go to a node of
    that variant. *)
Definition variant_ok (c : Call) : Prop :=
  match c with
  | SetMdnsBroadcaster node _ | Advertise node => is_server node = true
  | Connect node => is_server node = false
  | _ => True
  end.

(** The node that receives its default action by call [c]. *)
Definition default_action_of (c : Call) : option MatterNode :=
  match c with
  | Advertise node | Connect node => Some node
  | _ => None
  end.

(** The node that is handed a scanner, or a broadcaster, by call [c]. *)
Definition scanner_injection_of (c : Call) : option MatterNode :=
  match c with
  | SetMdnsScanner node _ => Some node
  | _ => None
  end.

Definition broadcaster_injection_of (c : Call) : option MatterNode :=
  match c with
  | SetMdnsBroadcaster node _ => Some node
  | _ => None
  end.

(** The node on which call [c] is made. *)
Definition call_node (c : Call) : option MatterNode :=
  match c with
  | SetStorage node _ | SetMdnsBroadcaster node _ | SetMdnsScanner node _
  | Advertise node | Connect node | NodeClose node => Some node
  | CreateContext _ _ | MdnsBroadcaster_create _ | MdnsScanner_create => None
  end.

(** The factory calls among the calls of [start]. *)
Definition scanner_creation_of (c : Call) : option unit :=
  match c with
  | MdnsScanner_create => Some tt
  | _ => None
  end.

Definition broadcaster_creation_of (c : Call) : option unit :=
  match c with
  | MdnsBroadcaster_create _ => Some tt
  | _ => None
  end.

(** Call [c], made after the calls [hist], hands over what the factory call
    made just before it returned; a broadcaster is created for the
    interface [announceInterface]. *)
Definition handed_from_factory
    (w : World) (announceInterface : option string) (hist : list Call) (c : Call) : Prop :=
  match c with
  | SetMdnsScanner _ scanner =>
      exists before,
        hist = before ++ [MdnsScanner_create] /\
        w before MdnsScanner_create = inr scanner
  | SetMdnsBroadcaster _ broadcaster =>
      exists before,
        hist = before ++ [MdnsBroadcaster_create announceInterface] /\
        w before (MdnsBroadcaster_create announceInterface) = inr broadcaster
  | MdnsBroadcaster_create requested => requested = announceInterface
  | _ => True
  end.

(** A server announcing on one interface, with a server and a deferred
    controller in its registry. *)
Definition controllerD : CommissioningController :=
  {| commissioningController_ref := 4; delayedPairing := true |}.

Definition server_on_eth0 : MatterServer :=
  {| nodes := [ServerNode serverA; ControllerNode controllerD]; storageManager := sm0;
     mdnsAnnounceInterface := Some "eth0" |}.

(** How a registration of [node] run after [h] on [s] can throw [e], [r]
    being its run: on the capacity check, on [createContext] or on
    [setStorage]; the server is left as it was. *)
Definition registration_throws
    (w : World) (h : list Call) (s : MatterServer)
    (r : Run unit) (node : MatterNode) (o : option NodeOptions) (e : Exception) : Prop :=
  server r = s /\
  ((e = only_one_node /\ nodes s <> [] /\ calls r = []) \/
   (exists t,
      e = Rejected t /\ nodes s = [] /\
      calls r = [CreateContext (storageManager s) (storageId o 0)] /\
      failure w h (CreateContext (storageManager s) (storageId o 0)) = Some t) \/
   (exists t storage,
      e = Rejected t /\ nodes s = [] /\
      w h (CreateContext (storageManager s) (storageId o 0)) = inr storage /\
      calls r = [CreateContext (storageManager s) (storageId o 0);
                 SetStorage node storage] /\
      failure w (h ++ [CreateContext (storageManager s) (storageId o 0)])
        (SetStorage node storage) = Some t)).

Arguments storageId : simpl never.
Arguments port_in_use : simpl never.
Arguments only_one_node : simpl never.

(** * Properties *)

Example start_one_server :
  calls (start quiet_world [] {| nodes := [ServerNode serverA];
                                 storageManager := sm0; mdnsAnnounceInterface := None |})
  = [MdnsBroadcaster_create None;
     SetMdnsBroadcaster (ServerNode serverA) {| mdnsBroadcaster_ref := 0 |};
     MdnsScanner_create;
     SetMdnsScanner (ServerNode serverA) {| mdnsScanner_ref := 2 |};
     Advertise (ServerNode serverA)].
Proof. reflexivity. Qed.

Example add_first_server :
  addCommissioningServer serverA None quiet_world [] (new_MatterServer sm0 None)
  = {| result := Normal tt;
       server := {| nodes := [ServerNode serverA]; storageManager := sm0;
                    mdnsAnnounceInterface := None |};
       calls := [CreateContext sm0 "0";
                 SetStorage (ServerNode serverA) {| storageContext_ref := 0 |}] |}.
Proof. reflexivity. Qed.

(** ** Running a computation step by step *)

Section monad_laws.
Context {A B : Type} (w : World) (h : list Call) (s : MatterServer).

Lemma run_eta (r : Run B) :
  {| result := result r; server := server r; calls := calls r |} = r.
Proof. by destruct r. Qed.

Lemma bind_ret (a : A) (k : A -> Eff B) : (x <- ret a ;; k x) w h s = k a w h s.
Proof. unfold bind, ret; simpl. rewrite app_nil_r. apply run_eta. Qed.

Lemma bind_throw e (k : A -> Eff B) :
  (x <- throw e ;; k x) w h s = {| result := Throw e; server := s; calls := [] |}.
Proof. reflexivity. Qed.

Lemma bind_perform c (k : Ret c -> Eff B) :
  (x <- perform c ;; k x) w h s
  = match w h c with
    | inl t => {| result := Throw (Rejected t); server := s; calls := [c] |}
    | inr v =>
        let r := k v w (h ++ [c]) s in
        {| result := result r; server := server r; calls := c :: calls r |}
    end.
Proof. unfold bind, perform. by destruct (w h c). Qed.

Lemma bind_this_nodes (k : list MatterNode -> Eff B) :
  (x <- this_nodes ;; k x) w h s = k (nodes s) w h s.
Proof. unfold bind, this_nodes; simpl. rewrite app_nil_r. apply run_eta. Qed.

Lemma bind_this_storageManager (k : StorageManager -> Eff B) :
  (x <- this_storageManager ;; k x) w h s = k (storageManager s) w h s.
Proof. unfold bind, this_storageManager; simpl. rewrite app_nil_r. apply run_eta. Qed.

Lemma bind_this_mdnsAnnounceInterface (k : option string -> Eff B) :
  (x <- this_mdnsAnnounceInterface ;; k x) w h s = k (mdnsAnnounceInterface s) w h s.
Proof.
  unfold bind, this_mdnsAnnounceInterface; simpl. rewrite app_nil_r. apply run_eta.
Qed.
End monad_laws.

Ltac run_step :=
  first
    [ rewrite bind_this_nodes
    | rewrite bind_this_storageManager
    | rewrite bind_this_mdnsAnnounceInterface
    | rewrite bind_ret
    | rewrite bind_throw
    | rewrite bind_perform ];
  cbv beta.
Ltac run := repeat run_step.

(** ** Registration *)

Section registration.
Context (w : World) (h : list Call) (s : MatterServer).

Lemma addCommissioningServer_nonempty cs o :
  0 < length (nodes s) ->
  addCommissioningServer cs o w h s
  = {| result := Throw only_one_node; server := s; calls := [] |}.
Proof.
  intros Hlen. unfold addCommissioningServer. run.
  rewrite bool_decide_eq_true_2 by done. by run.
Qed.

Lemma addCommissioningController_nonempty cc o :
  0 < length (nodes s) ->
  addCommissioningController cc o w h s
  = {| result := Throw only_one_node; server := s; calls := [] |}.
Proof.
  intros Hlen. unfold addCommissioningController. run.
  rewrite bool_decide_eq_true_2 by done. by run.
Qed.

(** On an empty registry the outcome is decided by the two calls. *)
Lemma addCommissioningServer_empty cs o :
  nodes s = [] ->
  addCommissioningServer cs o w h s
  = let c1 := CreateContext (storageManager s) (storageId o 0) in
    match w h c1 with
    | inl t => {| result := Throw (Rejected t); server := s; calls := [c1] |}
    | inr storage =>
        let c2 := SetStorage (ServerNode cs) storage in
        match w (h ++ [c1]) c2 with
        | inl t => {| result := Throw (Rejected t); server := s; calls := [c1; c2] |}
        | inr _ =>
            {| result := Normal tt;
               server := {| nodes := [ServerNode cs];
                            storageManager := storageManager s;
                            mdnsAnnounceInterface := mdnsAnnounceInterface s |};
               calls := [c1; c2] |}
        end
    end.
Proof.
  intros Hnil. cbv zeta. unfold addCommissioningServer, portCheck. run.
  rewrite !Hnil. rewrite bool_decide_eq_false_2 by (simpl; lia).
  run. rewrite !Hnil. cbn [for_of_var]. run. rewrite !Hnil. cbn [length].
  destruct (w _ (CreateContext _ _)) as [t|storage]; [done|].
  cbv zeta. run.
  destruct (w _ (SetStorage _ _)) as [t|[]]; [done|].
  unfold nodes_push. cbn [result server calls]. by rewrite Hnil.
Qed.

Lemma addCommissioningController_empty cc o :
  nodes s = [] ->
  addCommissioningController cc o w h s
  = let c1 := CreateContext (storageManager s) (storageId o 0) in
    match w h c1 with
    | inl t => {| result := Throw (Rejected t); server := s; calls := [c1] |}
    | inr storage =>
        let c2 := SetStorage (ControllerNode cc) storage in
        match w (h ++ [c1]) c2 with
        | inl t => {| result := Throw (Rejected t); server := s; calls := [c1; c2] |}
        | inr _ =>
            {| result := Normal tt;
               server := {| nodes := [ControllerNode cc];
                            storageManager := storageManager s;
                            mdnsAnnounceInterface := mdnsAnnounceInterface s |};
               calls := [c1; c2] |}
        end
    end.
Proof.
  intros Hnil. cbv zeta. unfold addCommissioningController. run.
  rewrite !Hnil. rewrite bool_decide_eq_false_2 by (simpl; lia).
  run. rewrite !Hnil. cbn [length].
  destruct (w _ (CreateContext _ _)) as [t|storage]; [done|].
  cbv zeta. run.
  destruct (w _ (SetStorage _ _)) as [t|[]]; [done|].
  unfold nodes_push. cbn [result server calls]. by rewrite Hnil.
Qed.

(** A registration that completes started from an empty registry and
    leaves exactly its node in it. *)
Lemma addCommissioningServer_normal cs o :
  result (addCommissioningServer cs o w h s) = Normal tt ->
  nodes s = [] /\ nodes (server (addCommissioningServer cs o w h s)) = [ServerNode cs].
Proof.
  destruct (nodes s) as [|n l] eqn:Hn.
  - rewrite addCommissioningServer_empty by done. cbv zeta.
    destruct (w _ (CreateContext _ _)); [done|].
    by destruct (w _ (SetStorage _ _)).
  - rewrite addCommissioningServer_nonempty; [done|]. rewrite Hn; simpl; lia.
Qed.

Lemma addCommissioningController_normal cc o :
  result (addCommissioningController cc o w h s) = Normal tt ->
  nodes s = [] /\
  nodes (server (addCommissioningController cc o w h s)) = [ControllerNode cc].
Proof.
  destruct (nodes s) as [|n l] eqn:Hn.
  - rewrite addCommissioningController_empty by done. cbv zeta.
    destruct (w _ (CreateContext _ _)); [done|].
    by destruct (w _ (SetStorage _ _)).
  - rewrite addCommissioningController_nonempty; [done|]. rewrite Hn; simpl; lia.
Qed.
End registration.

(** C1.  On a server whose registry holds one node, [addCommissioningServer]
    and [addCommissioningController] both throw the capacity error
    ("Only one node is allowed for now"); the server is left as it was, its
    registry still holding exactly that node, and no call is made on any
    collaborator: no storage context is created and none is injected. *)
Theorem second_registration_rejected
    (w : World) (h : list Call) (s : MatterServer) (n : MatterNode)
    (cs : CommissioningServer) (cc : CommissioningController) (o : option NodeOptions) :
  nodes s = [n] ->
  (result (addCommissioningServer cs o w h s) = Throw only_one_node /\
   server (addCommissioningServer cs o w h s) = s /\
   nodes (server (addCommissioningServer cs o w h s)) = [n] /\
   calls (addCommissioningServer cs o w h s) = []) /\
  (result (addCommissioningController cc o w h s) = Throw only_one_node /\
   server (addCommissioningController cc o w h s) = s /\
   nodes (server (addCommissioningController cc o w h s)) = [n] /\
   calls (addCommissioningController cc o w h s) = []).
Proof.
  intros Hn.
  assert (0 < length (nodes s)) as Hlen by (rewrite Hn; simpl; lia).
  rewrite addCommissioningServer_nonempty, addCommissioningController_nonempty by done.
  by cbn [result server calls].
Qed.

Lemma second_registration_rejected_witness :
  (result (addCommissioningServer serverB None quiet_world [] server_with_A)
   = Throw only_one_node /\
   server (addCommissioningServer serverB None quiet_world [] server_with_A)
   = server_with_A /\
   nodes (server (addCommissioningServer serverB None quiet_world [] server_with_A))
   = [ServerNode serverA] /\
   calls (addCommissioningServer serverB None quiet_world [] server_with_A) = []) /\
  (result (addCommissioningController controllerC None quiet_world [] server_with_A)
   = Throw only_one_node /\
   server (addCommissioningController controllerC None quiet_world [] server_with_A)
   = server_with_A /\
   nodes (server (addCommissioningController controllerC None quiet_world [] server_with_A))
   = [ServerNode serverA] /\
   calls (addCommissioningController controllerC None quiet_world [] server_with_A) = []).
Proof.
  apply (second_registration_rejected quiet_world [] server_with_A (ServerNode serverA)
           serverB controllerC None).
  reflexivity.
Defined.

(** The port loop is only reached with an empty registry, so
    [addCommissioningServer] never throws the port error. *)
Lemma addCommissioningServer_no_port_error w h s cs o nodePort :
  result (addCommissioningServer cs o w h s) <> Throw (port_in_use nodePort).
Proof.
  destruct (nodes s) as [|n l] eqn:Hn.
  - rewrite addCommissioningServer_empty by done. cbv zeta.
    destruct (w _ (CreateContext _ _)); [done|].
    by destruct (w _ (SetStorage _ _)).
  - rewrite addCommissioningServer_nonempty by (rewrite Hn; simpl; lia).
    cbn [result]. unfold only_one_node, port_in_use. intros [=].
Qed.

(** C2, as stated, fails.  Two servers on port 5540: the first is registered,
    the second registration throws the capacity error, not the port error. *)
Lemma same_port_rejected_by_capacity_check :
  let r1 := addCommissioningServer serverA None quiet_world [] empty_server in
  let r2 := addCommissioningServer serverB None quiet_world (calls r1) (server r1) in
  getPort serverA = getPort serverB /\
  result r1 = Normal tt /\
  result r2 = Throw (Error "Only one node is allowed for now") /\
  result r2 <> Throw (port_in_use 5540).
Proof. repeat split; try reflexivity. intros [=]. Qed.

(** C2, amended.  Of two servers configured with the same port, once the
    first is registered the registration of the second throws the capacity
    error: the capacity check comes first, the port loop is not reached, the
    registry is unchanged and no call is made on a collaborator. *)
Theorem same_port_second_registration
    (w : World) (h : list Call) (s : MatterServer)
    (a b : CommissioningServer) (oa ob : option NodeOptions) :
  getPort a = getPort b ->
  result (addCommissioningServer a oa w h s) = Normal tt ->
  let r1 := addCommissioningServer a oa w h s in
  let r2 := addCommissioningServer b ob w (h ++ calls r1) (server r1) in
  result r2 = Throw only_one_node /\
  server r2 = server r1 /\
  nodes (server r2) = [ServerNode a] /\
  calls r2 = [].
Proof.
  intros _ Hok r1 r2.
  destruct (addCommissioningServer_normal w h s a oa Hok) as [_ Hnodes].
  subst r2. rewrite addCommissioningServer_nonempty.
  - by cbn [result server calls].
  - subst r1. rewrite Hnodes. simpl; lia.
Qed.

Lemma same_port_second_registration_witness :
  getPort serverA = getPort serverB /\
  result (addCommissioningServer serverA None quiet_world [] empty_server) = Normal tt /\
  result (addCommissioningServer serverB None quiet_world
            ([] ++ calls (addCommissioningServer serverA None quiet_world [] empty_server))
            (server (addCommissioningServer serverA None quiet_world [] empty_server)))
  = Throw only_one_node /\
  server (addCommissioningServer serverB None quiet_world
            ([] ++ calls (addCommissioningServer serverA None quiet_world [] empty_server))
            (server (addCommissioningServer serverA None quiet_world [] empty_server)))
  = server (addCommissioningServer serverA None quiet_world [] empty_server) /\
  nodes (server (addCommissioningServer serverB None quiet_world
            ([] ++ calls (addCommissioningServer serverA None quiet_world [] empty_server))
            (server (addCommissioningServer serverA None quiet_world [] empty_server))))
  = [ServerNode serverA] /\
  calls (addCommissioningServer serverB None quiet_world
            ([] ++ calls (addCommissioningServer serverA None quiet_world [] empty_server))
            (server (addCommissioningServer serverA None quiet_world [] empty_server)))
  = [].
Proof.
  split; [reflexivity|]. split; [reflexivity|].
  apply (same_port_second_registration quiet_world [] empty_server serverA serverB None None).
  - reflexivity.
  - reflexivity.
Defined.

(** C5.  The id passed to [createContext] by either registration method is
    [storageId]: the [uniqueNodeId] option when given, otherwise the decimal
    rendering of the registry length.  Any [createContext] call made has that
    id, and on an empty registry it is the first call made.  Without
    [uniqueNodeId] the first node gets id "0"; with [uniqueNodeId] the id is
    that string whatever the registry length. *)
Theorem storage_id_derivation
    (w : World) (h : list Call) (s : MatterServer)
    (cs : CommissioningServer) (cc : CommissioningController) (o : option NodeOptions) :
  (forall sm id, CreateContext sm id ∈ calls (addCommissioningServer cs o w h s) ->
     id = storageId o (length (nodes s))) /\
  (forall sm id, CreateContext sm id ∈ calls (addCommissioningController cc o w h s) ->
     id = storageId o (length (nodes s))) /\
  (nodes s = [] ->
     head (calls (addCommissioningServer cs o w h s))
     = Some (CreateContext (storageManager s) (storageId o (length (nodes s)))) /\
     head (calls (addCommissioningController cc o w h s))
     = Some (CreateContext (storageManager s) (storageId o (length (nodes s))))) /\
  storageId None 0 = "0" /\
  storageId (Some {| uniqueNodeId := None |}) 0 = "0" /\
  (forall id n, storageId (Some {| uniqueNodeId := Some id |}) n = id) /\
  (forall n, storageId (Some {| uniqueNodeId := Some "home" |}) n = "home").
Proof.
  assert (forall c1 c2 sm id, CreateContext sm id ∈ [c1; c2] ->
            (forall n st, c2 <> CreateContext n st) -> CreateContext sm id = c1) as Hin.
  { intros c1 c2 sm id Hel Hc2. apply elem_of_cons in Hel as [->|Hel]; [done|].
    apply list_elem_of_singleton in Hel. by destruct (Hc2 sm id). }
  split_and!; try done.
  - intros sm id. destruct (nodes s) as [|n l] eqn:Hn.
    + rewrite addCommissioningServer_empty by done. cbv zeta.
      destruct (w _ (CreateContext _ _)) as [t|st].
      * intros [=]%list_elem_of_singleton. done.
      * destruct (w _ (SetStorage _ _)); cbn [calls];
          intros Hel; apply Hin in Hel; try done; by injection Hel.
    + rewrite addCommissioningServer_nonempty by (rewrite Hn; simpl; lia).
      cbn [calls]. by intros ?%elem_of_nil.
  - intros sm id. destruct (nodes s) as [|n l] eqn:Hn.
    + rewrite addCommissioningController_empty by done. cbv zeta.
      destruct (w _ (CreateContext _ _)) as [t|st].
      * intros [=]%list_elem_of_singleton. done.
      * destruct (w _ (SetStorage _ _)); cbn [calls];
          intros Hel; apply Hin in Hel; try done; by injection Hel.
    + rewrite addCommissioningController_nonempty by (rewrite Hn; simpl; lia).
      cbn [calls]. by intros ?%elem_of_nil.
  - intros Hn.
    rewrite addCommissioningServer_empty, addCommissioningController_empty by done.
    rewrite Hn. cbv zeta. cbn [length].
    split.
    + destruct (w _ (CreateContext _ _)); [done|]. by destruct (w _ (SetStorage _ _)).
    + destruct (w _ (CreateContext _ _)); [done|]. by destruct (w _ (SetStorage _ _)).
Qed.

(** ** Sequencing lemmas *)

Section sequencing.
Context {A B : Type} (m : Eff A) (k : A -> Eff B).
Context (w : World) (h : list Call) (s : MatterServer).

Lemma bind_cases :
  (exists a, result (m w h s) = Normal a /\
     bind m k w h s
     = {| result := result (k a w (h ++ calls (m w h s)) (server (m w h s)));
          server := server (k a w (h ++ calls (m w h s)) (server (m w h s)));
          calls := calls (m w h s)
                   ++ calls (k a w (h ++ calls (m w h s)) (server (m w h s))) |}) \/
  (exists e, result (m w h s) = Throw e /\
     bind m k w h s
     = {| result := Throw e; server := server (m w h s); calls := calls (m w h s) |}).
Proof. unfold bind. destruct (result (m w h s)); eauto. Qed.

Lemma bind_server :
  server (m w h s) = s ->
  (forall a, server (k a w (h ++ calls (m w h s)) s) = s) ->
  server (bind m k w h s) = s.
Proof.
  intros Hm Hk. destruct bind_cases as [(a & _ & ->)|(e & _ & ->)]; cbn [server].
  - rewrite Hm. apply Hk.
  - done.
Qed.

Lemma bind_Forall (Q : Call -> Prop) :
  Forall Q (calls (m w h s)) ->
  (forall a, Forall Q (calls (k a w (h ++ calls (m w h s)) (server (m w h s))))) ->
  Forall Q (calls (bind m k w h s)).
Proof.
  intros Hm Hk. destruct bind_cases as [(a & _ & ->)|(e & _ & ->)]; cbn [calls].
  - apply Forall_app; auto.
  - done.
Qed.

Lemma bind_fail_fast :
  fail_fast w h (m w h s) ->
  (forall a, result (m w h s) = Normal a ->
     fail_fast w (h ++ calls (m w h s))
       (k a w (h ++ calls (m w h s)) (server (m w h s)))) ->
  fail_fast w h (bind m k w h s).
Proof.
  intros Hm Hk. destruct bind_cases as [(a & Ha & ->)|(e & He & ->)].
  - specialize (Hk a Ha). intros pre c post t Heq Hf. cbn [calls result] in *.
    apply app_eq_inv in Heq as [(l & Hl1 & Hpost)|(l & Hpre & Hl2)].
    + destruct l as [|c' l]; simpl in Hpost.
      * rewrite app_nil_r in Hl1. subst pre.
        apply (Hk [] c post t); [done|by rewrite app_nil_r].
      * injection Hpost as <- ->.
        destruct (Hm pre c l t Hl1 Hf) as [_ Hthrow]. congruence.
    + subst pre. apply (Hk l c post t Hl2). by rewrite <-app_assoc.
  - intros pre c post t Heq Hf. cbn [calls result] in *.
    destruct (Hm pre c post t Heq Hf) as [-> Hr]. split; [done|congruence].
Qed.

Lemma bind_rejected_by_last_call :
  rejected_by_last_call w h (m w h s) ->
  (forall a, result (m w h s) = Normal a ->
     rejected_by_last_call w (h ++ calls (m w h s))
       (k a w (h ++ calls (m w h s)) (server (m w h s)))) ->
  rejected_by_last_call w h (bind m k w h s).
Proof.
  intros Hm Hk. destruct bind_cases as [(a & Ha & ->)|(e & He & ->)].
  - intros t Ht. cbn [calls result] in *.
    destruct (Hk a Ha t Ht) as (pre & c & -> & Hf).
    exists (calls (m w h s) ++ pre), c. by rewrite !app_assoc.
  - intros t Ht. cbn [calls result] in *. apply Hm. congruence.
Qed.

Lemma bind_propagating :
  propagating w h (m w h s) ->
  (forall a, propagating w (h ++ calls (m w h s))
               (k a w (h ++ calls (m w h s)) (server (m w h s)))) ->
  propagating w h (bind m k w h s).
Proof.
  intros (Hm1 & Hm2 & Hm3) Hk. split_and!.
  - apply bind_fail_fast; [done|]. intros a _. apply Hk.
  - apply bind_rejected_by_last_call; [done|]. intros a _. apply Hk.
  - intros message. destruct bind_cases as [(a & Ha & ->)|(e & He & ->)]; cbn [result].
    + apply Hk.
    + intros [= ->]. by apply (Hm3 message).
Qed.
End sequencing.

Section primitives.
Context (w : World) (h : list Call) (s : MatterServer).

Lemma ret_propagating {A} (a : A) : propagating w h (ret a w h s).
Proof.
  split_and!.
  - intros pre c post t Heq. by destruct pre.
  - by intros t.
  - by intros message.
Qed.

Lemma this_mdnsAnnounceInterface_propagating :
  propagating w h (this_mdnsAnnounceInterface w h s).
Proof. apply (ret_propagating (mdnsAnnounceInterface s)). Qed.

Lemma perform_propagating c : propagating w h (perform c w h s).
Proof.
  unfold perform. split_and!.
  - intros pre c' post t Heq Hf. unfold failure in Hf.
    assert (pre = [] /\ c' = c /\ post = []) as (-> & -> & ->).
    { destruct (w h c); cbn [calls] in Heq;
        destruct pre as [|? [|? ?]]; simpl in Heq; by simplify_eq. }
    rewrite app_nil_r in Hf. destruct (w h c); by simplify_eq.
  - intros t. destruct (w h c) eqn:Hc; cbn [result calls]; intros Ht; simplify_eq.
    exists [], c. rewrite app_nil_r. unfold failure. by rewrite Hc.
  - intros message. by destruct (w h c).
Qed.

Lemma perform_server c : server (perform c w h s) = s.
Proof. unfold perform. by destruct (w h c). Qed.

End primitives.

Section loops.
Context {A : Type} (body : A -> Eff unit).

Lemma for_of_server l :
  (forall x w h s, server (body x w h s) = s) ->
  forall w h s, server (for_of l body w h s) = s.
Proof.
  intros Hbody. induction l as [|x l IH]; intros w h s; cbn [for_of]; [done|].
  apply bind_server; [apply Hbody|]. intros _. apply IH.
Qed.

Lemma for_of_Forall (Q : Call -> Prop) l :
  (forall x w h s, x ∈ l -> Forall Q (calls (body x w h s))) ->
  forall w h s, Forall Q (calls (for_of l body w h s)).
Proof.
  induction l as [|x l IH]; intros Hbody w h s; cbn [for_of].
  - constructor.
  - apply bind_Forall; [apply Hbody; left|].
    intros _. apply IH. intros; apply Hbody. by right.
Qed.

Lemma for_of_propagating l :
  (forall x w h s, propagating w h (body x w h s)) ->
  forall w h s, propagating w h (for_of l body w h s).
Proof.
  intros Hbody. induction l as [|x l IH]; intros w h s; cbn [for_of].
  - apply ret_propagating.
  - apply bind_propagating; [apply Hbody|]. intros _. apply IH.
Qed.
End loops.

(** ** close *)

Section close_loop.
Context (w : World) (s : MatterServer).

Lemma returned_cons_ok h c l :
  failure w h c = None -> returned w h (c :: l) = c :: returned w (h ++ [c]) l.
Proof. intros Hf. cbn [returned]. by rewrite Hf. Qed.

Lemma returned_cons_failed h c l t :
  failure w h c = Some t -> returned w h (c :: l) = returned w (h ++ [c]) l.
Proof. intros Hf. cbn [returned]. by rewrite Hf. Qed.

(** The loop of [close] over the nodes [l]: either every close call
    returned, or the loop stopped at the first one that failed. *)
Lemma close_loop l h :
  let r := for_of l (fun node => perform (NodeClose node)) w h s in
  (result r = Normal tt /\
   calls r = NodeClose <$> l /\
   returned w h (calls r) = calls r) \/
  (exists pre node post t,
     l = pre ++ node :: post /\
     calls r = NodeClose <$> (pre ++ [node]) /\
     returned w h (calls r) = NodeClose <$> pre /\
     failure w (h ++ (NodeClose <$> pre)) (NodeClose node) = Some t /\
     result r = Throw (Rejected t)).
Proof.
  cbv zeta. revert h. induction l as [|n l IH]; intros h; cbn [for_of].
  { left. by cbn. }
  rewrite (bind_perform w h s (NodeClose n)).
  destruct (w h (NodeClose n)) as [t|[]] eqn:Hn.
  - right. exists [], n, l, t. cbn [result calls]. rewrite app_nil_r.
    assert (failure w h (NodeClose n) = Some t) as Hf by (unfold failure; by rewrite Hn).
    split_and!; try done.
    by rewrite (returned_cons_failed _ _ _ t).
  - cbv zeta. cbn [result calls].
    assert (failure w h (NodeClose n) = None) as Hf by (unfold failure; by rewrite Hn).
    rewrite returned_cons_ok by done.
    destruct (IH (h ++ [NodeClose n]))
      as [(Hr & Hc & Hret)|(pre & node & post & t & -> & Hc & Hret & Hfail & Hr)].
    + left. rewrite Hret, Hc. by rewrite fmap_cons.
    + right. exists (n :: pre), node, post, t.
      rewrite Hret, Hc. rewrite <-app_assoc in Hfail. by rewrite !fmap_cons.
Qed.
End close_loop.

Lemma close_run w h s :
  close w h s = for_of (nodes s) (fun node => perform (NodeClose node)) w h s.
Proof. unfold close. by rewrite bind_this_nodes. Qed.

(** With the one node that the cap allows, [close] makes exactly that node's
    close call. *)
Lemma close_one_node w h s node :
  nodes s = [node] -> calls (close w h s) = [NodeClose node].
Proof.
  intros Hn. rewrite close_run, Hn. cbn [for_of].
  rewrite (bind_perform w h s (NodeClose node)). by destruct (w h (NodeClose node)).
Qed.

(** The loop of [close] over any list of nodes: the close operations are
    called in order, one call per entry, up to the first call that fails.
    Either every call returned and [close] completes, or a call failed, the
    entries before it have been closed and that failure is what [close]
    throws. *)
Theorem close_stops_at_first_failure (w : World) (h : list Call) (s : MatterServer) :
  (result (close w h s) = Normal tt /\
   calls (close w h s) = NodeClose <$> nodes s /\
   returned w h (calls (close w h s)) = calls (close w h s)) \/
  (exists pre node post t,
     nodes s = pre ++ node :: post /\
     calls (close w h s) = NodeClose <$> (pre ++ [node]) /\
     returned w h (calls (close w h s)) = NodeClose <$> pre /\
     failure w (h ++ (NodeClose <$> pre)) (NodeClose node) = Some t /\
     result (close w h s) = Throw (Rejected t)).
Proof. rewrite close_run. apply close_loop. Qed.

(** C9.  [close] leaves the server as it found it, whether it completes or
    throws: the registry holds the same nodes in the same order. *)
Theorem close_keeps_registry (w : World) (h : list Call) (s : MatterServer) :
  server (close w h s) = s /\ nodes (server (close w h s)) = nodes s.
Proof.
  assert (server (close w h s) = s) as Hs.
  { rewrite close_run. apply for_of_server.
    intros node w' h' s'. apply (perform_server w' h' s' (NodeClose node)). }
  by rewrite Hs.
Qed.

(** C8.  On an empty registry [close] completes, makes no call and leaves the
    server unchanged; so does calling it twice in a row. *)
Theorem close_empty_registry (w : World) (h : list Call) (s : MatterServer) :
  nodes s = [] ->
  close w h s = {| result := Normal tt; server := s; calls := [] |} /\
  (close ;; close) w h s = {| result := Normal tt; server := s; calls := [] |}.
Proof.
  intros Hn.
  assert (forall h', close w h' s = {| result := Normal tt; server := s; calls := [] |})
    as Hclose.
  { intros h'. rewrite close_run, Hn. reflexivity. }
  split; [apply Hclose|].
  unfold bind at 1. rewrite Hclose. cbn [result server calls].
  by rewrite Hclose.
Qed.

Lemma close_empty_registry_witness :
  nodes empty_server = [] /\
  close quiet_world [] empty_server
  = {| result := Normal tt; server := empty_server; calls := [] |} /\
  (close ;; close) quiet_world [] empty_server
  = {| result := Normal tt; server := empty_server; calls := [] |}.
Proof.
  split; [reflexivity|].
  apply (close_empty_registry quiet_world [] empty_server). reflexivity.
Defined.

(** ** start *)

Lemma start_run w h s : start w h s = for_of (nodes s) start_node w h s.
Proof. unfold start. by rewrite bind_this_nodes. Qed.

Lemma each_call_app (P : list Call -> Call -> Prop) l1 l2 :
  (forall l pre c, P pre c -> P (l ++ pre) c) ->
  each_call P l1 -> each_call P l2 -> each_call P (l1 ++ l2).
Proof.
  intros Hmono H1 H2 pre c post Heq.
  apply app_eq_inv in Heq as [(l & Hl1 & Hpost)|(l & Hpre & Hl2)].
  - destruct l as [|c' l]; simpl in Hpost.
    + rewrite app_nil_r in Hl1. subst pre.
      rewrite <-(app_nil_r l1). apply Hmono. by apply (H2 [] c post).
    + injection Hpost as <- ->. by apply (H1 pre c l).
  - subst pre. apply Hmono. by apply (H2 l c post).
Qed.

Lemma injected_before_mono l pre c :
  injected_before pre c -> injected_before (l ++ pre) c.
Proof.
  destruct c; cbn; try done.
  - intros [[b Hb] [sc Hsc]]. split; eexists; apply elem_of_app; right; eassumption.
  - intros [sc Hsc]. eexists; apply elem_of_app; right; eassumption.
Qed.

Section start_node.
Context (w : World) (h : list Call) (s : MatterServer).

Lemma start_node_propagating node : propagating w h (start_node node w h s).
Proof.
  destruct node as [cs|cc]; cbn [start_node].
  - apply bind_propagating; [apply this_mdnsAnnounceInterface_propagating|intros iface].
    apply bind_propagating; [apply perform_propagating|intros b].
    apply bind_propagating; [apply perform_propagating|intros _].
    apply bind_propagating; [apply perform_propagating|intros sc].
    apply bind_propagating; [apply perform_propagating|intros _].
    destruct (negb _);
      [apply (perform_propagating _ _ _ (Advertise _))|apply ret_propagating].
  - apply bind_propagating; [apply perform_propagating|intros sc].
    apply bind_propagating; [apply perform_propagating|intros _].
    destruct (negb _);
      [apply (perform_propagating _ _ _ (Connect _))|apply ret_propagating].
Qed.

(** The runs of [start_node], one per answer of the world. *)
Lemma start_node_server_run cs :
  start_node (ServerNode cs) w h s
  = let node := ServerNode cs in
    let c1 := MdnsBroadcaster_create (mdnsAnnounceInterface s) in
    match w h c1 with
    | inl t => {| result := Throw (Rejected t); server := s; calls := [c1] |}
    | inr b =>
    let c2 := SetMdnsBroadcaster node b in
    match w (h ++ [c1]) c2 with
    | inl t => {| result := Throw (Rejected t); server := s; calls := [c1; c2] |}
    | inr _ =>
    let c3 := MdnsScanner_create in
    match w ((h ++ [c1]) ++ [c2]) c3 with
    | inl t => {| result := Throw (Rejected t); server := s; calls := [c1; c2; c3] |}
    | inr sc =>
    let c4 := SetMdnsScanner node sc in
    match w (((h ++ [c1]) ++ [c2]) ++ [c3]) c4 with
    | inl t => {| result := Throw (Rejected t); server := s; calls := [c1; c2; c3; c4] |}
    | inr _ =>
    if delayedAnnouncement cs
    then {| result := Normal tt; server := s; calls := [c1; c2; c3; c4] |}
    else
      let c5 := Advertise node in
      match w ((((h ++ [c1]) ++ [c2]) ++ [c3]) ++ [c4]) c5 with
      | inl t =>
          {| result := Throw (Rejected t); server := s; calls := [c1; c2; c3; c4; c5] |}
      | inr _ => {| result := Normal tt; server := s; calls := [c1; c2; c3; c4; c5] |}
      end
    end end end end.
Proof.
  cbv zeta. cbn [start_node]. run.
  destruct (w h _) as [t|b]; [done|]. cbv zeta. run.
  destruct (w _ (SetMdnsBroadcaster _ _)) as [t|[]]; [done|]. cbv zeta. run.
  destruct (w _ MdnsScanner_create) as [t|sc]; [done|]. cbv zeta. run.
  destruct (w _ (SetMdnsScanner _ _)) as [t|[]]; [done|]. cbv zeta.
  destruct (delayedAnnouncement cs); cbn [negb result server calls]; [done|].
  unfold perform. by destruct (w _ (Advertise _)) as [t|[]].
Qed.

Lemma start_node_controller_run cc :
  start_node (ControllerNode cc) w h s
  = let node := ControllerNode cc in
    let c1 := MdnsScanner_create in
    match w h c1 with
    | inl t => {| result := Throw (Rejected t); server := s; calls := [c1] |}
    | inr sc =>
    let c2 := SetMdnsScanner node sc in
    match w (h ++ [c1]) c2 with
    | inl t => {| result := Throw (Rejected t); server := s; calls := [c1; c2] |}
    | inr _ =>
    if delayedPairing cc
    then {| result := Normal tt; server := s; calls := [c1; c2] |}
    else
      let c3 := Connect node in
      match w ((h ++ [c1]) ++ [c2]) c3 with
      | inl t => {| result := Throw (Rejected t); server := s; calls := [c1; c2; c3] |}
      | inr _ => {| result := Normal tt; server := s; calls := [c1; c2; c3] |}
      end
    end end.
Proof.
  cbv zeta. cbn [start_node]. run.
  destruct (w h _) as [t|sc]; [done|]. cbv zeta. run.
  destruct (w _ (SetMdnsScanner _ _)) as [t|[]]; [done|]. cbv zeta.
  destruct (delayedPairing cc); cbn [negb result server calls]; [done|].
  unfold perform. by destruct (w _ (Connect _)) as [t|[]].
Qed.
End start_node.

Ltac start_node_cases w node :=
  destruct node as [?cs|?cc];
  [ rewrite start_node_server_run | rewrite start_node_controller_run ];
  cbv zeta;
  repeat
    match goal with
    | |- context [match w ?h ?c with _ => _ end] => destruct (w h c) as [?t|?v]
    | |- context [if delayedAnnouncement ?cs then _ else _] =>
        destruct (delayedAnnouncement cs) eqn:?
    | |- context [if delayedPairing ?cc then _ else _] =>
        destruct (delayedPairing cc) eqn:?
    end;
  cbn [result server calls].

Ltac find_call :=
  solve [ repeat first [ apply list_elem_of_here | apply list_elem_of_further ] ].

Ltac split_trace :=
  repeat
    match goal with
    | H : _ = ?pre ++ _ :: _ |- _ => destruct pre; simpl in H; simplify_eq
    end.

Section start_node_facts.
Context (w : World) (h : list Call) (s : MatterServer) (node : MatterNode).

Lemma start_node_server : server (start_node node w h s) = s.
Proof. start_node_cases w node; reflexivity. Qed.

Lemma start_node_injected_before :
  each_call injected_before (calls (start_node node w h s)).
Proof.
  start_node_cases w node; intros pre c post Heq; split_trace;
    cbn; repeat split; eexists; find_call.
Qed.

Lemma start_node_variant :
  Forall (fun c => variant_ok c /\ storage_of c = None /\
                   forall n, call_node c = Some n -> n = node)
    (calls (start_node node w h s)).
Proof.
  start_node_cases w node; repeat constructor; cbn; congruence.
Qed.

Lemma start_node_default_actions :
  omap default_action_of (calls (start_node node w h s))
    `sublist_of` (if deferred node then [] else [node]) /\
  (result (start_node node w h s) = Normal tt ->
   omap default_action_of (calls (start_node node w h s))
   = if deferred node then [] else [node]).
Proof.
  start_node_cases w node; cbn [deferred omap default_action_of];
    repeat match goal with H : _ = _ |- _ => rewrite H end;
    (split; [first [reflexivity | apply sublist_nil_l]|done]).
Qed.

Lemma start_node_scanner_injections :
  omap scanner_injection_of (calls (start_node node w h s)) `sublist_of` [node] /\
  (result (start_node node w h s) = Normal tt ->
   omap scanner_injection_of (calls (start_node node w h s)) = [node]).
Proof.
  start_node_cases w node; cbn [omap scanner_injection_of];
    (split; [first [reflexivity | apply sublist_nil_l]|done]).
Qed.

Lemma start_node_broadcaster_injections :
  omap broadcaster_injection_of (calls (start_node node w h s))
    `sublist_of` (if is_server node then [node] else []) /\
  (result (start_node node w h s) = Normal tt ->
   omap broadcaster_injection_of (calls (start_node node w h s))
   = if is_server node then [node] else []).
Proof.
  start_node_cases w node; cbn [is_server omap broadcaster_injection_of];
    (split; [first [reflexivity | apply sublist_nil_l]|done]).
Qed.
End start_node_facts.

Section loop_traces.
Context {A : Type} (body : A -> Eff unit).

Lemma for_of_each_call (P : list Call -> Call -> Prop) l :
  (forall l' pre c, P pre c -> P (l' ++ pre) c) ->
  (forall x w h s, each_call P (calls (body x w h s))) ->
  forall w h s, each_call P (calls (for_of l body w h s)).
Proof.
  intros Hmono Hbody. induction l as [|x l IH]; intros w h s; cbn [for_of].
  - intros pre c post Heq. by destruct pre.
  - destruct (bind_cases (body x) (fun _ => for_of l body) w h s)
      as [(a & _ & ->)|(e & _ & ->)]; cbn [calls].
    + apply each_call_app; [done|apply Hbody|apply IH].
    + apply Hbody.
Qed.

(** The nodes picked by [f] from the calls of a loop, one body after the
    other: a subsequence of what the bodies pick when they complete, and
    all of it when the loop completes. *)
Lemma for_of_omap {B} (f : Call -> option B) (g : A -> list B) l :
  (forall x w h s,
     omap f (calls (body x w h s)) `sublist_of` g x /\
     (result (body x w h s) = Normal tt -> omap f (calls (body x w h s)) = g x)) ->
  forall w h s,
    omap f (calls (for_of l body w h s)) `sublist_of` (l ≫= g) /\
    (result (for_of l body w h s) = Normal tt ->
     omap f (calls (for_of l body w h s)) = l ≫= g).
Proof.
  intros Hbody. induction l as [|x l IH]; intros w h s; cbn [for_of].
  - by cbn.
  - destruct (Hbody x w h s) as [Hsub Heq].
    destruct (bind_cases (body x) (fun _ => for_of l body) w h s)
      as [([] & Hx & ->)|(e & Hx & ->)]; cbn [calls result].
    + destruct (IH w (h ++ calls (body x w h s)) (server (body x w h s)))
        as [Hsub' Heq'].
      rewrite omap_app. split.
      * by apply sublist_app.
      * intros Hr. by rewrite Heq, Heq'.
    + split; [|done]. by apply sublist_inserts_r.
Qed.
End loop_traces.

Lemma bind_not_deferred (l : list MatterNode) :
  l ≫= (fun node => if deferred node then [] else [node])
  = filter (fun node => deferred node = false) l.
Proof.
  induction l as [|x l IH]; [done|]. cbn [mbind list_bind]. rewrite filter_cons.
  change (mbind ?f l) with (l ≫= f). rewrite IH.
  destruct (deferred x); by case_decide.
Qed.

Lemma bind_is_server (l : list MatterNode) :
  l ≫= (fun node => if is_server node then [node] else [])
  = filter (fun node => is_server node = true) l.
Proof.
  induction l as [|x l IH]; [done|]. cbn [mbind list_bind]. rewrite filter_cons.
  change (mbind ?f l) with (l ≫= f). rewrite IH.
  destruct (is_server x); by case_decide.
Qed.

Lemma bind_each (l : list MatterNode) : l ≫= (fun node => [node]) = l.
Proof. induction l as [|x l IH]; [done|]. cbn. by f_equal. Qed.

Lemma start_default_actions w h s :
  omap default_action_of (calls (start w h s))
    `sublist_of` filter (fun node => deferred node = false) (nodes s) /\
  (result (start w h s) = Normal tt ->
   omap default_action_of (calls (start w h s))
   = filter (fun node => deferred node = false) (nodes s)).
Proof.
  rewrite start_run, <-bind_not_deferred. apply for_of_omap.
  intros; apply start_node_default_actions.
Qed.

Lemma default_action_elem_of node (l : list Call) :
  Advertise node ∈ l \/ Connect node ∈ l -> node ∈ omap default_action_of l.
Proof.
  intros [Hin|Hin]; apply list_elem_of_omap; eexists; (split; [exact Hin|done]).
Qed.

(** C4.  In the calls made by [start], every [advertise] on a node comes
    after a [setMdnsBroadcaster] and a [setMdnsScanner] on that node, and
    every [connect] on a node after a [setMdnsScanner] on it.  A node whose
    deferred flag is set receives neither [advertise] nor [connect]: the
    nodes that receive their default action are, in order, registered nodes
    whose flag is not set.  When [start] completes, every registered node was
    handed a scanner, every registered server a broadcaster, and exactly the
    nodes whose flag is not set received their default action. *)
Theorem start_injects_before_default_action
    (w : World) (h : list Call) (s : MatterServer) :
  each_call injected_before (calls (start w h s)) /\
  (forall node, deferred node = true ->
     (Advertise node ∉ calls (start w h s)) /\ (Connect node ∉ calls (start w h s))) /\
  omap default_action_of (calls (start w h s))
    `sublist_of` filter (fun node => deferred node = false) (nodes s) /\
  (result (start w h s) = Normal tt ->
     omap scanner_injection_of (calls (start w h s)) = nodes s /\
     omap broadcaster_injection_of (calls (start w h s))
     = filter (fun node => is_server node = true) (nodes s) /\
     omap default_action_of (calls (start w h s))
     = filter (fun node => deferred node = false) (nodes s)).
Proof.
  destruct (start_default_actions w h s) as [Hsub Heq].
  assert (forall node, node ∈ omap default_action_of (calls (start w h s)) ->
            deferred node = false) as Hdef.
  { intros node Hin. eapply elem_of_sublist in Hin; [|exact Hsub].
    by apply list_elem_of_filter in Hin as [? _]. }
  split_and!.
  - rewrite start_run. apply for_of_each_call.
    + intros; by apply injected_before_mono.
    + intros; apply start_node_injected_before.
  - intros node Hflag.
    split; intros Hin; rewrite Hdef in Hflag; try done;
      apply default_action_elem_of; auto.
  - done.
  - intros Hr. split_and!.
    + rewrite start_run in *. rewrite <-(bind_each (nodes s)) at 2.
      apply for_of_omap; [|done]. intros; apply start_node_scanner_injections.
    + rewrite start_run in *. rewrite <-bind_is_server.
      apply for_of_omap; [|done]. intros; apply start_node_broadcaster_injections.
    + by apply Heq.
Qed.

Example start_deferred_controller :
  calls (start quiet_world []
           {| nodes := [ControllerNode {| commissioningController_ref := 4;
                                          delayedPairing := true |}];
              storageManager := sm0; mdnsAnnounceInterface := None |})
  = [MdnsScanner_create;
     SetMdnsScanner (ControllerNode {| commissioningController_ref := 4;
                                       delayedPairing := true |})
       {| mdnsScanner_ref := 0 |}].
Proof. reflexivity. Qed.

Lemma start_propagating w h s : propagating w h (start w h s).
Proof.
  rewrite start_run. apply for_of_propagating. intros; apply start_node_propagating.
Qed.

(** C6.  [start] is fail-fast.  Whenever a call it makes on a collaborator
    fails (creating the broadcaster or the scanner, a setter, [advertise] or
    [connect]), that call is the last call [start] makes, for the node being
    processed and for every node after it, and [start] throws what the
    collaborator threw.  Conversely an exception thrown by [start] is the
    failure of its last call, and [start] throws no error of its own. *)
Theorem start_fail_fast (w : World) (h : list Call) (s : MatterServer) :
  fail_fast w h (start w h s) /\
  rejected_by_last_call w h (start w h s) /\
  (forall message, result (start w h s) <> Throw (Error message)).
Proof. apply start_propagating. Qed.

Example start_without_scanner :
  start no_scanner [] server_with_A_B
  = {| result := Throw (Rejected scanner_failure);
       server := server_with_A_B;
       calls := [MdnsBroadcaster_create None;
                 SetMdnsBroadcaster (ServerNode serverA) {| mdnsBroadcaster_ref := 0 |};
                 MdnsScanner_create] |}.
Proof. reflexivity. Qed.

Lemma start_calls w h s :
  Forall (fun c => variant_ok c /\ storage_of c = None /\
                   forall n, call_node c = Some n -> n ∈ nodes s)
    (calls (start w h s)).
Proof.
  rewrite start_run. apply for_of_Forall. intros node w' h' s' Hin.
  eapply Forall_impl; [apply start_node_variant|].
  intros c (Hv & Hs & Hn). split_and!; [done..|].
  intros n Hc. by rewrite (Hn n Hc).
Qed.

(** C10.  [start] dispatches on the variant of the node.  Of the calls it
    makes, [setMdnsBroadcaster] and [advertise] are made on servers only and
    [connect] on controllers only: a controller receives neither
    [setMdnsBroadcaster] nor [advertise], a server never receives [connect].
    Every call on a node is on a registered node, and the nodes that receive
    a default action form a subsequence of the registry: one default action
    at most per registered node, that of its own variant. *)
Theorem start_dispatches_by_variant (w : World) (h : list Call) (s : MatterServer) :
  Forall variant_ok (calls (start w h s)) /\
  (forall cc,
     (Advertise (ControllerNode cc) ∉ calls (start w h s)) /\
     (forall broadcaster,
        SetMdnsBroadcaster (ControllerNode cc) broadcaster ∉ calls (start w h s))) /\
  (forall cs, Connect (ServerNode cs) ∉ calls (start w h s)) /\
  (forall c node, c ∈ calls (start w h s) -> call_node c = Some node -> node ∈ nodes s) /\
  omap default_action_of (calls (start w h s)) `sublist_of` nodes s.
Proof.
  pose proof (start_calls w h s) as Hall.
  rewrite Forall_forall in Hall.
  split_and!.
  - apply Forall_forall. intros c Hc. by apply Hall.
  - intros cc. split; [|intros b]; intros Hin; by destruct (Hall _ Hin) as [? _].
  - intros cs Hin. by destruct (Hall _ Hin) as [? _].
  - intros c node Hc Hnode. destruct (Hall _ Hc) as (_ & _ & Hreg). by apply Hreg.
  - etrans; [apply start_default_actions|apply sublist_filter].
Qed.

(** ** Storage contexts *)

Section assignments.
Context (w : World).

Lemma returned_app h l1 l2 :
  returned w h (l1 ++ l2) = returned w h l1 ++ returned w (h ++ l1) l2.
Proof.
  revert h. induction l1 as [|c l1 IH]; intros h; cbn [returned app].
  - by rewrite app_nil_r.
  - rewrite IH, <-app_assoc. by destruct (failure w h c).
Qed.

Lemma assigned_app h l1 l2 :
  assigned w h (l1 ++ l2) = assigned w h l1 ++ assigned w (h ++ l1) l2.
Proof. unfold assigned. by rewrite returned_app, omap_app. Qed.

Lemma assigned_none h l :
  Forall (fun c => storage_of c = None) l -> assigned w h l = [].
Proof.
  unfold assigned. intros Hl. revert h.
  induction Hl as [|c l Hc Hl IH]; intros h; cbn [returned]; [done|].
  destruct (failure w h c); cbn [omap list_omap]; [apply IH|].
  rewrite Hc. apply IH.
Qed.

Lemma start_no_setStorage h s : Forall (fun c => storage_of c = None) (calls (start w h s)).
Proof. eapply Forall_impl; [apply start_calls|]. by intros c (_ & ? & _). Qed.

Lemma close_no_setStorage h s : Forall (fun c => storage_of c = None) (calls (close w h s)).
Proof.
  rewrite close_run. apply for_of_Forall. intros node w' h' s' _.
  unfold perform. destruct (w' h' (NodeClose node)); by repeat constructor.
Qed.

Lemma addCommissioningServer_assigned h s cs o :
  match result (addCommissioningServer cs o w h s) with
  | Normal _ =>
      nodes s = [] /\
      exists storage,
        w h (CreateContext (storageManager s) (storageId o 0)) = inr storage /\
        assigned w h (calls (addCommissioningServer cs o w h s))
        = [(ServerNode cs, storage)]
  | Throw _ =>
      server (addCommissioningServer cs o w h s) = s /\
      assigned w h (calls (addCommissioningServer cs o w h s)) = []
  end.
Proof.
  destruct (nodes s) as [|n l] eqn:Hn.
  - rewrite addCommissioningServer_empty by done. cbv zeta.
    destruct (w h (CreateContext _ _)) as [t|storage] eqn:H1; cbn [result server calls].
    { unfold assigned, returned, failure. by rewrite H1. }
    destruct (w _ (SetStorage _ _)) as [t|[]] eqn:H2; cbn [result server calls];
      unfold assigned, returned, failure; rewrite H1, H2; eauto.
  - rewrite addCommissioningServer_nonempty by (rewrite Hn; simpl; lia). by cbn.
Qed.

Lemma addCommissioningController_assigned h s cc o :
  match result (addCommissioningController cc o w h s) with
  | Normal _ =>
      nodes s = [] /\
      exists storage,
        w h (CreateContext (storageManager s) (storageId o 0)) = inr storage /\
        assigned w h (calls (addCommissioningController cc o w h s))
        = [(ControllerNode cc, storage)]
  | Throw _ =>
      server (addCommissioningController cc o w h s) = s /\
      assigned w h (calls (addCommissioningController cc o w h s)) = []
  end.
Proof.
  destruct (nodes s) as [|n l] eqn:Hn.
  - rewrite addCommissioningController_empty by done. cbv zeta.
    destruct (w h (CreateContext _ _)) as [t|storage] eqn:H1; cbn [result server calls].
    { unfold assigned, returned, failure. by rewrite H1. }
    destruct (w _ (SetStorage _ _)) as [t|[]] eqn:H2; cbn [result server calls];
      unfold assigned, returned, failure; rewrite H1, H2; eauto.
  - rewrite addCommissioningController_nonempty by (rewrite Hn; simpl; lia). by cbn.
Qed.

(** Each method call adds to the registry exactly the nodes it hands a
    storage context to. *)
Lemma run_op_assigned op h s :
  nodes (server (run_op op w h s))
  = nodes s ++ (assigned w h (calls (run_op op w h s))).*1.
Proof.
  destruct op as [cs o|cc o| |]; cbn [run_op].
  - pose proof (addCommissioningServer_assigned h s cs o) as Ha.
    pose proof (addCommissioningServer_normal w h s cs o) as Hn.
    destruct (result (addCommissioningServer cs o w h s)) as [[]|e].
    + destruct Ha as (_ & st & _ & ->). destruct Hn as [-> ->]; done.
    + destruct Ha as [-> ->]. by rewrite app_nil_r.
  - pose proof (addCommissioningController_assigned h s cc o) as Ha.
    pose proof (addCommissioningController_normal w h s cc o) as Hn.
    destruct (result (addCommissioningController cc o w h s)) as [[]|e].
    + destruct Ha as (_ & st & _ & ->). destruct Hn as [-> ->]; done.
    + destruct Ha as [-> ->]. by rewrite app_nil_r.
  - rewrite assigned_none by apply start_no_setStorage.
    rewrite start_run, for_of_server by (intros; apply start_node_server).
    by rewrite app_nil_r.
  - rewrite assigned_none by apply close_no_setStorage.
    rewrite close_run, for_of_server
      by (intros node w' h' s'; apply (perform_server w' h' s' (NodeClose node))).
    by rewrite app_nil_r.
Qed.

Lemma run_op_capacity op h s :
  length (nodes s) <= 1 -> length (nodes (server (run_op op w h s))) <= 1.
Proof.
  intros Hlen. rewrite run_op_assigned.
  destruct op as [cs o|cc o| |]; cbn [run_op].
  - pose proof (addCommissioningServer_assigned h s cs o) as Ha.
    destruct (result (addCommissioningServer cs o w h s)) as [[]|e].
    + destruct Ha as (-> & st & _ & ->). simpl; lia.
    + destruct Ha as [_ ->]. by rewrite app_nil_r.
  - pose proof (addCommissioningController_assigned h s cc o) as Ha.
    destruct (result (addCommissioningController cc o w h s)) as [[]|e].
    + destruct Ha as (-> & st & _ & ->). simpl; lia.
    + destruct Ha as [_ ->]. by rewrite app_nil_r.
  - rewrite assigned_none by apply start_no_setStorage. by rewrite app_nil_r.
  - rewrite assigned_none by apply close_no_setStorage. by rewrite app_nil_r.
Qed.

Lemma run_ops_assigned ops h s :
  (assigned w [] h).*1 = nodes s ->
  length (nodes s) <= 1 ->
  (assigned w [] (run_ops w ops h s).2).*1 = nodes (run_ops w ops h s).1 /\
  length (nodes (run_ops w ops h s).1) <= 1.
Proof.
  revert h s. induction ops as [|op ops IH]; intros h s Hinv Hlen; cbn [run_ops].
  - done.
  - apply IH.
    + rewrite assigned_app, fmap_app, Hinv, app_nil_l. by rewrite run_op_assigned.
    + by apply run_op_capacity.
Qed.
End assignments.

(** C7.  A node is handed its storage context once, by the registration that
    registers it, a storage context counting as handed over when the
    [setStorage] call returns.  A registration that completes hands exactly
    one storage context, to the node being registered; a registration that
    throws hands over none.  [start] and [close] never call [setStorage].
    Hence after any sequence of method calls on a new server the nodes that
    were handed a storage context are the registered nodes, once each, and
    there is at most one. *)
Theorem storage_assigned_once (w : World) :
  (forall h s cs o,
     match result (addCommissioningServer cs o w h s) with
     | Normal _ =>
         exists storage,
           assigned w h (calls (addCommissioningServer cs o w h s))
           = [(ServerNode cs, storage)]
     | Throw _ => assigned w h (calls (addCommissioningServer cs o w h s)) = []
     end) /\
  (forall h s cc o,
     match result (addCommissioningController cc o w h s) with
     | Normal _ =>
         exists storage,
           assigned w h (calls (addCommissioningController cc o w h s))
           = [(ControllerNode cc, storage)]
     | Throw _ => assigned w h (calls (addCommissioningController cc o w h s)) = []
     end) /\
  (forall h s node storage,
     (SetStorage node storage ∉ calls (start w h s)) /\
     (SetStorage node storage ∉ calls (close w h s))) /\
  (forall ops sm iface,
     (assigned w [] (run_ops w ops [] (new_MatterServer sm iface)).2).*1
     = nodes (run_ops w ops [] (new_MatterServer sm iface)).1 /\
     length (nodes (run_ops w ops [] (new_MatterServer sm iface)).1) <= 1).
Proof.
  split_and!.
  - intros h s cs o. pose proof (addCommissioningServer_assigned w h s cs o) as Ha.
    destruct (result (addCommissioningServer cs o w h s)).
    + destruct Ha as (_ & storage & _ & Ha). eauto.
    + apply Ha.
  - intros h s cc o. pose proof (addCommissioningController_assigned w h s cc o) as Ha.
    destruct (result (addCommissioningController cc o w h s)).
    + destruct Ha as (_ & storage & _ & Ha). eauto.
    + apply Ha.
  - intros h s node storage. split; intros Hin.
    + pose proof (start_no_setStorage w h s) as Hall.
      rewrite Forall_forall in Hall. by specialize (Hall _ Hin).
    + pose proof (close_no_setStorage w h s) as Hall.
      rewrite Forall_forall in Hall. by specialize (Hall _ Hin).
  - intros ops sm iface. apply run_ops_assigned; cbn; [done|lia].
Qed.

Example storage_assigned_once_run :
  let ops := [AddCommissioningServer serverA None;
              AddCommissioningServer serverB (Some {| uniqueNodeId := Some "home" |});
              Start; Close;
              AddCommissioningController controllerC None] in
  nodes (run_ops quiet_world ops [] empty_server).1 = [ServerNode serverA] /\
  assigned quiet_world [] (run_ops quiet_world ops [] empty_server).2
  = [(ServerNode serverA, {| storageContext_ref := 0 |})].
Proof. split; reflexivity. Qed.

(** * Further properties of the methods *)

(** ** Outcomes of a registration *)

(** X2.  A registration completes exactly when the registry is empty and
    both of its calls return.  It then made exactly two calls,
    [createContext] for the derived id and [setStorage] on the node being
    registered with the context that [createContext] returned, and it leaves
    a registry holding that node alone, the storage manager and the announce
    interface being unchanged. *)
Theorem registration_completes
    (w : World) (h : list Call) (s : MatterServer)
    (cs : CommissioningServer) (cc : CommissioningController) (o : option NodeOptions) :
  (result (addCommissioningServer cs o w h s) = Normal tt <->
   nodes s = [] /\
   exists storage,
     w h (CreateContext (storageManager s) (storageId o 0)) = inr storage /\
     failure w (h ++ [CreateContext (storageManager s) (storageId o 0)])
       (SetStorage (ServerNode cs) storage) = None) /\
  (result (addCommissioningServer cs o w h s) = Normal tt ->
   exists storage,
     w h (CreateContext (storageManager s) (storageId o 0)) = inr storage /\
     calls (addCommissioningServer cs o w h s)
     = [CreateContext (storageManager s) (storageId o 0);
        SetStorage (ServerNode cs) storage] /\
     server (addCommissioningServer cs o w h s)
     = {| nodes := [ServerNode cs]; storageManager := storageManager s;
          mdnsAnnounceInterface := mdnsAnnounceInterface s |}) /\
  (result (addCommissioningController cc o w h s) = Normal tt <->
   nodes s = [] /\
   exists storage,
     w h (CreateContext (storageManager s) (storageId o 0)) = inr storage /\
     failure w (h ++ [CreateContext (storageManager s) (storageId o 0)])
       (SetStorage (ControllerNode cc) storage) = None) /\
  (result (addCommissioningController cc o w h s) = Normal tt ->
   exists storage,
     w h (CreateContext (storageManager s) (storageId o 0)) = inr storage /\
     calls (addCommissioningController cc o w h s)
     = [CreateContext (storageManager s) (storageId o 0);
        SetStorage (ControllerNode cc) storage] /\
     server (addCommissioningController cc o w h s)
     = {| nodes := [ControllerNode cc]; storageManager := storageManager s;
          mdnsAnnounceInterface := mdnsAnnounceInterface s |}).
Proof.
  destruct (nodes s) as [|n l] eqn:Hn.
  - rewrite addCommissioningServer_empty, addCommissioningController_empty by done.
    cbv zeta. unfold failure.
    destruct (w h (CreateContext _ _)) as [t|storage]; cbn [result server calls].
    { split_and!; try done; split; try done; by intros (_ & ? & [=] & _). }
    split_and!.
    + destruct (w _ (SetStorage (ServerNode cs) _)) as [t|[]] eqn:Hset; cbn [result].
      * split; [done|]. intros (_ & st & [= <-] & Hf). by rewrite Hset in Hf.
      * split; [|done]. intros _. split; [done|]. exists storage. by rewrite Hset.
    + destruct (w _ (SetStorage (ServerNode cs) _)) as [t|[]]; cbn [result server calls];
        [done|]. intros _. by exists storage.
    + destruct (w _ (SetStorage (ControllerNode cc) _)) as [t|[]] eqn:Hset; cbn [result].
      * split; [done|]. intros (_ & st & [= <-] & Hf). by rewrite Hset in Hf.
      * split; [|done]. intros _. split; [done|]. exists storage. by rewrite Hset.
    + destruct (w _ (SetStorage (ControllerNode cc) _)) as [t|[]]; cbn [result server calls];
        [done|]. intros _. by exists storage.
  - rewrite addCommissioningServer_nonempty, addCommissioningController_nonempty
      by (rewrite Hn; simpl; lia).
    cbn [result]. split_and!; try done; split; try done; by intros [[=] _].
Qed.

Section registration_failure.
Context (w : World) (h : list Call) (s : MatterServer).

Lemma addCommissioningServer_throws cs o e :
  result (addCommissioningServer cs o w h s) = Throw e ->
  registration_throws w h s (addCommissioningServer cs o w h s) (ServerNode cs) o e.
Proof.
  unfold registration_throws. destruct (nodes s) as [|n l] eqn:Hn.
  - rewrite addCommissioningServer_empty by done. cbv zeta. unfold failure.
    destruct (w h (CreateContext _ _)) as [t|storage]; cbn [result server calls].
    { intros [= <-]. split; [done|]. right; left. by exists t. }
    destruct (w _ (SetStorage _ _)) as [t|[]] eqn:Hset; cbn [result server calls]; [|done].
    intros [= <-]. split; [done|]. right; right. exists t, storage. by rewrite Hset.
  - rewrite addCommissioningServer_nonempty by (rewrite Hn; simpl; lia).
    cbn [result server calls]. intros [= <-]. split; [done|]. by left.
Qed.

Lemma addCommissioningController_throws cc o e :
  result (addCommissioningController cc o w h s) = Throw e ->
  registration_throws w h s
    (addCommissioningController cc o w h s) (ControllerNode cc) o e.
Proof.
  unfold registration_throws. destruct (nodes s) as [|n l] eqn:Hn.
  - rewrite addCommissioningController_empty by done. cbv zeta. unfold failure.
    destruct (w h (CreateContext _ _)) as [t|storage]; cbn [result server calls].
    { intros [= <-]. split; [done|]. right; left. by exists t. }
    destruct (w _ (SetStorage _ _)) as [t|[]] eqn:Hset; cbn [result server calls]; [|done].
    intros [= <-]. split; [done|]. right; right. exists t, storage. by rewrite Hset.
  - rewrite addCommissioningController_nonempty by (rewrite Hn; simpl; lia).
    cbn [result server calls]. intros [= <-]. split; [done|]. by left.
Qed.
End registration_failure.

(** X3.  A registration that throws leaves the server as it was, whatever
    the reason.  It throws either the capacity error, on a registry that is
    not empty and before any call; or what [createContext] threw, and then
    [setStorage] was not called; or what [setStorage] threw, and then the
    node was not pushed.  [addCommissioningServer] never throws the port
    error. *)
Theorem registration_throws_atomically
    (w : World) (h : list Call) (s : MatterServer)
    (cs : CommissioningServer) (cc : CommissioningController) (o : option NodeOptions) :
  (forall e,
     result (addCommissioningServer cs o w h s) = Throw e ->
     registration_throws w h s (addCommissioningServer cs o w h s) (ServerNode cs) o e) /\
  (forall e,
     result (addCommissioningController cc o w h s) = Throw e ->
     registration_throws w h s
       (addCommissioningController cc o w h s) (ControllerNode cc) o e) /\
  (forall nodePort,
     result (addCommissioningServer cs o w h s) <> Throw (port_in_use nodePort)).
Proof.
  split_and!.
  - apply addCommissioningServer_throws.
  - apply addCommissioningController_throws.
  - intros nodePort Hr.
    destruct (addCommissioningServer_throws w h s cs o _ Hr)
      as [_ [(He & _)|[(t & He & _)|(t & st & He & _)]]]; done.
Qed.

Example registration_createContext_fails :
  addCommissioningServer serverA None
    (fun h c => match c return Thrown + Ret c with
                | CreateContext _ _ => inl {| reason := "disk full" |}
                | c' => quiet_world h c'
                end) [] empty_server
  = {| result := Throw (Rejected {| reason := "disk full" |});
       server := empty_server;
       calls := [CreateContext sm0 "0"] |}.
Proof. reflexivity. Qed.

(** ** What start leaves alone, and what it creates *)

Lemma start_server w h s : server (start w h s) = s.
Proof. rewrite start_run. apply for_of_server. intros; apply start_node_server. Qed.

(** X4.  [start] leaves the server as it found it, whether it completes or
    throws: it registers no node, removes none, and keeps the storage manager
    and the announce interface. *)
Theorem start_keeps_server (w : World) (h : list Call) (s : MatterServer) :
  server (start w h s) = s /\ nodes (server (start w h s)) = nodes s.
Proof. by rewrite start_server. Qed.

Ltac start_node_answers w node :=
  destruct node as [?cs|?cc];
  [ rewrite start_node_server_run | rewrite start_node_controller_run ];
  cbv zeta;
  repeat
    match goal with
    | |- context [match w ?h ?c with _ => _ end] => destruct (w h c) as [?t|?v] eqn:?
    | |- context [if delayedAnnouncement ?cs then _ else _] =>
        destruct (delayedAnnouncement cs) eqn:?
    | |- context [if delayedPairing ?cc then _ else _] =>
        destruct (delayedPairing cc) eqn:?
    end;
  cbn [result server calls].

Section start_services.
Context (w : World) (s : MatterServer).

Lemma start_node_scanner_creations node h :
  omap scanner_creation_of (calls (start_node node w h s)) `sublist_of` [tt] /\
  (result (start_node node w h s) = Normal tt ->
   omap scanner_creation_of (calls (start_node node w h s)) = [tt]).
Proof.
  start_node_cases w node; cbn [omap scanner_creation_of];
    (split; [first [reflexivity | apply sublist_nil_l]|done]).
Qed.

Lemma start_node_broadcaster_creations node h :
  omap broadcaster_creation_of (calls (start_node node w h s))
    `sublist_of` (if is_server node then [tt] else []) /\
  (result (start_node node w h s) = Normal tt ->
   omap broadcaster_creation_of (calls (start_node node w h s))
   = if is_server node then [tt] else []).
Proof.
  start_node_cases w node; cbn [is_server omap broadcaster_creation_of];
    (split; [first [reflexivity | apply sublist_nil_l]|done]).
Qed.

Lemma start_node_handed_from_factory node h pre c post :
  calls (start_node node w h s) = pre ++ c :: post ->
  handed_from_factory w (mdnsAnnounceInterface s) (h ++ pre) c.
Proof.
  start_node_answers w node; intros Heq; split_trace; cbn; try done;
    (eexists; split; [|eassumption]; by rewrite <-?app_assoc).
Qed.

(** A property of every call of the loop of [start], given the calls made
    before it since the beginning. *)
Lemma start_loop_each_call (P : list Call -> Call -> Prop) l :
  (forall node h pre c post,
     calls (start_node node w h s) = pre ++ c :: post -> P (h ++ pre) c) ->
  forall h pre c post,
    calls (for_of l start_node w h s) = pre ++ c :: post -> P (h ++ pre) c.
Proof.
  intros Hnode. induction l as [|node l IH]; intros h pre c post; cbn [for_of].
  { cbn. by destruct pre. }
  destruct (bind_cases (start_node node) (fun _ => for_of l start_node) w h s)
    as [(a & _ & ->)|(e & _ & ->)]; cbn [calls]; [|apply Hnode].
  rewrite start_node_server. intros Heq.
  apply app_eq_inv in Heq as [(k & Hl1 & Hpost)|(k & Hpre & Hl2)].
  - destruct k as [|c' k]; simpl in Hpost.
    + rewrite app_nil_r in Hl1. subst pre.
      rewrite <-(app_nil_r (calls _)), app_assoc. by apply (IH _ [] c post).
    + injection Hpost as <- ->. by apply (Hnode node h pre c k).
  - subst pre. rewrite app_assoc. by apply (IH _ k c post).
Qed.
End start_services.

Lemma bind_units {A} (l : list A) : length (l ≫= (fun _ => [tt])) = length l.
Proof. induction l as [|x l IH]; [done|]. cbn. by f_equal. Qed.

Lemma bind_units_servers (l : list MatterNode) :
  length (l ≫= (fun node => if is_server node then [tt] else []))
  = length (filter (fun node => is_server node = true) l).
Proof.
  induction l as [|x l IH]; [done|]. cbn [mbind list_bind]. rewrite filter_cons.
  change (mbind ?f l) with (l ≫= f). rewrite length_app, IH.
  destruct (is_server x); by case_decide.
Qed.

(** X5.  [start] creates its discovery services node by node and keeps none
    for the next node: it calls [MdnsScanner.create] at most once per
    registered node and [MdnsBroadcaster.create] at most once per registered
    server, and exactly that often when it completes. *)
Theorem start_creates_services_per_node (w : World) (h : list Call) (s : MatterServer) :
  length (omap scanner_creation_of (calls (start w h s))) <= length (nodes s) /\
  length (omap broadcaster_creation_of (calls (start w h s)))
  <= length (filter (fun node => is_server node = true) (nodes s)) /\
  (result (start w h s) = Normal tt ->
   length (omap scanner_creation_of (calls (start w h s))) = length (nodes s) /\
   length (omap broadcaster_creation_of (calls (start w h s)))
   = length (filter (fun node => is_server node = true) (nodes s))).
Proof.
  rewrite start_run.
  destruct (for_of_omap start_node scanner_creation_of (fun _ => [tt]) (nodes s)
              (fun node w' h' s' => start_node_scanner_creations w' s' node h') w h s)
    as [Hs1 Hs2].
  destruct (for_of_omap start_node broadcaster_creation_of
              (fun node => if is_server node then [tt] else []) (nodes s)
              (fun node w' h' s' => start_node_broadcaster_creations w' s' node h') w h s)
    as [Hb1 Hb2].
  rewrite <-bind_units_servers, <-(bind_units (nodes s)).
  split_and!.
  - by apply sublist_length.
  - by apply sublist_length.
  - intros Hr. by rewrite Hs2, Hb2.
Qed.

(** X6.  In the calls made by [start], every [MdnsBroadcaster.create] is
    given the announce interface of the server, every [setMdnsBroadcaster]
    hands over the broadcaster that the [MdnsBroadcaster.create] call made
    just before it returned, and every [setMdnsScanner] the scanner that the
    [MdnsScanner.create] call made just before it returned. *)
Theorem start_hands_over_created_services (w : World) (h : list Call) (s : MatterServer) :
  (forall pre c post,
     calls (start w h s) = pre ++ c :: post ->
     handed_from_factory w (mdnsAnnounceInterface s) (h ++ pre) c) /\
  (forall announceInterface,
     MdnsBroadcaster_create announceInterface ∈ calls (start w h s) ->
     announceInterface = mdnsAnnounceInterface s).
Proof.
  assert (forall pre c post,
            calls (start w h s) = pre ++ c :: post ->
            handed_from_factory w (mdnsAnnounceInterface s) (h ++ pre) c) as Hall.
  { rewrite start_run. apply start_loop_each_call.
    intros; by eapply start_node_handed_from_factory. }
  split; [done|].
  intros iface (pre & post & Heq)%list_elem_of_split.
  apply (Hall _ _ _ Heq).
Qed.

Example start_server_on_eth0 :
  start quiet_world [] server_on_eth0
  = {| result := Normal tt;
       server := server_on_eth0;
       calls := [MdnsBroadcaster_create (Some "eth0");
                 SetMdnsBroadcaster (ServerNode serverA) {| mdnsBroadcaster_ref := 0 |};
                 MdnsScanner_create;
                 SetMdnsScanner (ServerNode serverA) {| mdnsScanner_ref := 2 |};
                 Advertise (ServerNode serverA);
                 MdnsScanner_create;
                 SetMdnsScanner (ControllerNode controllerD) {| mdnsScanner_ref := 5 |}] |}.
Proof. reflexivity. Qed.

(** ** Calling the methods again *)

Lemma run_op_nonempty w op h s :
  nodes s <> [] -> server (run_op op w h s) = s.
Proof.
  intros Hn. assert (0 < length (nodes s)) by (destruct (nodes s); simpl; [done|lia]).
  destruct op as [cs o|cc o| |]; cbn [run_op].
  - by rewrite addCommissioningServer_nonempty.
  - by rewrite addCommissioningController_nonempty.
  - apply start_server.
  - rewrite close_run. apply for_of_server.
    intros node w' h' s'. apply (perform_server w' h' s' (NodeClose node)).
Qed.

(** X7.  Once a node is registered the server never changes again: whatever
    methods are called afterwards, in whatever order and whether they
    complete or throw, the registry holds the same nodes, and a registration
    of either kind still throws the capacity error.  In particular [close]
    does not make room for another node. *)
Theorem registry_frozen
    (w : World) (ops : list Op) (h : list Call) (s : MatterServer) :
  nodes s <> [] ->
  (run_ops w ops h s).1 = s /\
  nodes (run_ops w ops h s).1 = nodes s /\
  (forall cs o,
     result (addCommissioningServer cs o w (run_ops w ops h s).2 (run_ops w ops h s).1)
     = Throw only_one_node) /\
  (forall cc o,
     result (addCommissioningController cc o w (run_ops w ops h s).2 (run_ops w ops h s).1)
     = Throw only_one_node).
Proof.
  intros Hn.
  assert ((run_ops w ops h s).1 = s) as Hs.
  { revert h. induction ops as [|op ops IH]; intros h; cbn [run_ops]; [done|].
    rewrite run_op_nonempty by done. apply IH. }
  assert (0 < length (nodes s)) by (destruct (nodes s); simpl; [done|lia]).
  rewrite Hs. split_and!; try done.
  - intros cs o. by rewrite addCommissioningServer_nonempty.
  - intros cc o. by rewrite addCommissioningController_nonempty.
Qed.

Lemma registry_frozen_witness :
  nodes server_with_A <> [] /\
  (run_ops quiet_world [Start; Close; AddCommissioningServer serverB None] [] server_with_A).1
  = server_with_A /\
  nodes (run_ops quiet_world [Start; Close; AddCommissioningServer serverB None]
           [] server_with_A).1
  = nodes server_with_A /\
  (forall cs o,
     result (addCommissioningServer cs o quiet_world
               (run_ops quiet_world [Start; Close; AddCommissioningServer serverB None]
                  [] server_with_A).2
               (run_ops quiet_world [Start; Close; AddCommissioningServer serverB None]
                  [] server_with_A).1)
     = Throw only_one_node) /\
  (forall cc o,
     result (addCommissioningController cc o quiet_world
               (run_ops quiet_world [Start; Close; AddCommissioningServer serverB None]
                  [] server_with_A).2
               (run_ops quiet_world [Start; Close; AddCommissioningServer serverB None]
                  [] server_with_A).1)
     = Throw only_one_node).
Proof.
  split; [done|].
  apply (registry_frozen quiet_world [Start; Close; AddCommissioningServer serverB None]
           [] server_with_A).
  done.
Defined.

Lemma start_scanner_injections w h s :
  result (start w h s) = Normal tt ->
  omap scanner_injection_of (calls (start w h s)) = nodes s.
Proof.
  rewrite start_run. rewrite <-(bind_each (nodes s)) at 3.
  apply for_of_omap. intros; apply start_node_scanner_injections.
Qed.

(** X8.  [start] has no guard against being called again: when two calls of
    [start] in a row complete, every registered node was handed a scanner
    twice and every node whose deferred flag is not set received its default
    action twice, the second round after the whole of the first. *)
Theorem start_twice (w : World) (h : list Call) (s : MatterServer) :
  result ((start ;; start) w h s) = Normal tt ->
  omap scanner_injection_of (calls ((start ;; start) w h s)) = nodes s ++ nodes s /\
  omap default_action_of (calls ((start ;; start) w h s))
  = filter (fun node => deferred node = false) (nodes s)
    ++ filter (fun node => deferred node = false) (nodes s).
Proof.
  destruct (bind_cases start (fun _ => start) w h s)
    as [([] & H1 & ->)|(e & _ & ->)]; cbn [result calls]; [|done].
  rewrite start_server. intros H2. rewrite !omap_app.
  rewrite !start_scanner_injections by done.
  destruct (start_default_actions w h s) as [_ ->]; [|done].
  by destruct (start_default_actions w (h ++ calls (start w h s)) s) as [_ ->].
Qed.

Lemma start_twice_witness :
  result ((start ;; start) quiet_world [] server_with_A) = Normal tt /\
  omap scanner_injection_of (calls ((start ;; start) quiet_world [] server_with_A))
  = nodes server_with_A ++ nodes server_with_A /\
  omap default_action_of (calls ((start ;; start) quiet_world [] server_with_A))
  = filter (fun node => deferred node = false) (nodes server_with_A)
    ++ filter (fun node => deferred node = false) (nodes server_with_A).
Proof.
  split; [reflexivity|].
  apply (start_twice quiet_world [] server_with_A). reflexivity.
Defined.

(** X9.  [close] has no guard against being called again either, and does
    not depend on [start] having been called: when two calls of [close] in a
    row complete, the close operation of every registered node was called
    twice, in registration order each time. *)
Theorem close_twice (w : World) (h : list Call) (s : MatterServer) :
  result ((close ;; close) w h s) = Normal tt ->
  calls ((close ;; close) w h s) = (NodeClose <$> nodes s) ++ (NodeClose <$> nodes s).
Proof.
  assert (forall h', result (close w h' s) = Normal tt ->
                     calls (close w h' s) = NodeClose <$> nodes s) as Hclose.
  { intros h'. rewrite close_run.
    destruct (close_loop w s (nodes s) h')
      as [(_ & Hc & _)|(pre & node & post & t & _ & _ & _ & _ & Hr)]; [done|].
    rewrite Hr. done. }
  destruct (bind_cases close (fun _ => close) w h s)
    as [([] & H1 & ->)|(e & _ & ->)]; cbn [result calls]; [|done].
  assert (server (close w h s) = s) as ->.
  { rewrite close_run. apply for_of_server.
    intros node w' h' s'. apply (perform_server w' h' s' (NodeClose node)). }
  intros H2. by rewrite (Hclose _ H2), (Hclose _ H1).
Qed.

Lemma close_twice_witness :
  result ((close ;; close) quiet_world [] server_with_A_B) = Normal tt /\
  calls ((close ;; close) quiet_world [] server_with_A_B)
  = (NodeClose <$> nodes server_with_A_B) ++ (NodeClose <$> nodes server_with_A_B).
Proof.
  split; [reflexivity|].
  apply (close_twice quiet_world [] server_with_A_B). reflexivity.
Defined.

(** ** close on the servers that the methods produce *)

Example close_fails_on_registered_node :
  close first_close_fails
    (run_ops first_close_fails [AddCommissioningServer serverA None] [] empty_server).2
    (run_ops first_close_fails [AddCommissioningServer serverA None] [] empty_server).1
  = {| result := Throw (Rejected close_failure);
       server := server_with_A;
       calls := [NodeClose (ServerNode serverA)] |}.
Proof. reflexivity. Qed.

